(** * Schema descriptors: pkg/sql/catalog/schemadesc/schema_desc.go

    A shallow embedding of the Go package [schemadesc] and the properties
    of its mutable and immutable descriptor types.

    Go values are embedded as follows.
    - [uint32] ([descpb.ID], [descpb.DescriptorVersion]) is [Z]; the only
      arithmetic the package does on it, [+ 1] on a version, is written
      with its wrap-around ([uint32_add]).
    - A slice [[]descpb.NameInfo] is a header (pointer, length, capacity)
      into a memory of [NameInfo] cells, so that two headers may share
      cells, as they do in Go after an assignment or a reslice.
    - [*descpb.PrivilegeDescriptor] is an optional index into a second
      memory; the package never looks inside a privilege descriptor.
    - [*Immutable] in [Mutable.ClusterVersion] is [option Immutable]: both
      constructors either allocate it themselves or leave it nil, and no
      method of the package writes through it. *)

From Stdlib Require Import String Ascii ZArith Bool Lia.
From stdpp Require Import base list.

(** ** Machine integers *)

Definition uint32_modulus : Z := (2 ^ 32)%Z.

(** [a + b] on Go's [uint32]. *)
Definition uint32_add (a b : Z) : Z := ((a + b) mod uint32_modulus)%Z.

Definition is_uint32 (a : Z) : Prop := (0 <= a < uint32_modulus)%Z.

(** ** Imported declarations *)

Module hlc.
(** [hlc.Timestamp]: a wall time and a logical counter; [Timestamp{}] is
    the struct with every field zero, which the package uses as "unset". *)
Record Timestamp := mk { WallTime : Z; Logical : Z }.
Definition zero : Timestamp := mk 0%Z 0%Z.
End hlc.

Module descpb.
Definition ID := Z.
Definition DescriptorVersion := Z.
(** Modelled from the spec: [descpb.InvalidID] is declared outside this
    package; the spec calls it "the invalid/zero ID". *)
Definition InvalidID : ID := 0%Z.
Inductive TableDescriptor_AuditMode :=
  | TableDescriptor_DISABLED
  | TableDescriptor_READWRITE.
End descpb.

Module NameInfo.
Record t := mk { ParentID : descpb.ID; ParentSchemaID : descpb.ID; Name : string }.
(** The zero value Go stores in freshly allocated cells. *)
Definition zero : t := mk 0%Z 0%Z EmptyString.
End NameInfo.

(** A slice header. The nil slice has length and capacity zero. *)
Record slice := mkslice { ptr : nat; len : nat; cap : nat }.

Definition nil_slice : slice := mkslice 0 0 0.

Module SchemaDescriptor.
Record t := mk {
  Name : string;
  ID : descpb.ID;
  ParentID : descpb.ID;
  Privileges : option nat;
  Version : descpb.DescriptorVersion;
  ModificationTime : hlc.Timestamp;
  DrainingNames : slice
}.

Definition with_Name (d : t) (x : string) : t :=
  mk x (ID d) (ParentID d) (Privileges d) (Version d)
     (ModificationTime d) (DrainingNames d).

Definition with_Version (d : t) (x : descpb.DescriptorVersion) : t :=
  mk (Name d) (ID d) (ParentID d) (Privileges d) x
     (ModificationTime d) (DrainingNames d).

Definition with_ModificationTime (d : t) (x : hlc.Timestamp) : t :=
  mk (Name d) (ID d) (ParentID d) (Privileges d) (Version d)
     x (DrainingNames d).

Definition with_DrainingNames (d : t) (x : slice) : t :=
  mk (Name d) (ID d) (ParentID d) (Privileges d) (Version d)
     (ModificationTime d) x.

Definition with_Privileges (d : t) (x : option nat) : t :=
  mk (Name d) (ID d) (ParentID d) x (Version d)
     (ModificationTime d) (DrainingNames d).
End SchemaDescriptor.

(** ** Errors *)

Module pgcode.
Inductive Code := ReservedName | Uncategorized.
End pgcode.

(** An error value as the package builds it: [pgerror.Newf] makes a leaf
    from a code, a format and its arguments; [errors.WithDetail] wraps an
    error with a detail text. *)
Inductive error :=
  | pgerror_Newf (code : pgcode.Code) (format : string) (args : list string)
  | errors_WithDetail (err : error) (detail : string).

Fixpoint GetPGCode (e : error) : pgcode.Code :=
  match e with
  | pgerror_Newf c _ _ => c
  | errors_WithDetail e' _ => GetPGCode e'
  end.

Fixpoint GetAllDetails (e : error) : list string :=
  match e with
  | pgerror_Newf _ _ _ => []
  | errors_WithDetail e' d => d :: GetAllDetails e'
  end.

Module strings.
(** [strings.HasPrefix(s, prefix)]. *)
Definition HasPrefix (s prefix : string) : bool := String.prefix prefix s.
End strings.

Module sessiondata.
(** [sessiondata.PgSchemaPrefix]; the comment in [IsSchemaNameValid] and
    its detail text both spell the value out. *)
Definition PgSchemaPrefix : string := "pg_".
End sessiondata.

Definition dquote : string := String (ascii_of_nat 34) EmptyString.

(** The raw string literal passed to [errors.WithDetail]. *)
Definition reserved_prefix_detail : string :=
  ("The prefix " ++ dquote ++ "pg_" ++ dquote
     ++ " is reserved for system schemas.")%string.

(** [IsSchemaNameValid]; [None] is Go's nil error. *)
Definition IsSchemaNameValid (name : string) : option error :=
  if strings.HasPrefix name sessiondata.PgSchemaPrefix then
    let err := pgerror_Newf pgcode.ReservedName
                 "unacceptable schema name %q" [name] in
    let err := errors_WithDetail err reserved_prefix_detail in
    Some err
  else None.

(** ** Memory *)

(** The cells a slice header gives access to, [s[0:len(s)]]. *)
Definition slice_read (mem : list NameInfo.t) (s : slice) : list NameInfo.t :=
  take (len s) (drop (ptr s) mem).

(** A header Go can hold: its capacity lies inside allocated memory. *)
Definition slice_ok (mem : list NameInfo.t) (s : slice) : Prop :=
  len s <= cap s /\ ptr s + cap s <= length mem.

(** The reslice [s[i:j]]. *)
Definition reslice (s : slice) (i j : nat) : slice :=
  mkslice (ptr s + i) (j - i) (cap s - i).

(** What the package takes from outside: declarations of other packages,
    and the capacities the Go runtime picks. *)
Class Environment := {
  (** [descpb.PrivilegeDescriptor]. *)
  PrivilegeDescriptor : Type;
  (** [keys.RootNamespaceID]. *)
  RootNamespaceID : descpb.ID;
  (** When [append] has to grow a slice to [n] elements, the runtime picks
      a capacity of at least [n]; [append_spare n] is what it adds to [n]. *)
  append_spare : nat -> nat;
  (** The same for the slices [protoutil.Clone] builds. *)
  clone_spare : nat -> nat
}.

Section Schemadesc.

Context {env : Environment}.

(** Go's builtin [append(s, x)]: when the capacity allows, [x] is written
    in place after the last element and the backing array is shared with
    [s]; otherwise the elements are copied to a fresh array. *)
Definition append (mem : list NameInfo.t) (s : slice) (x : NameInfo.t)
  : list NameInfo.t * slice :=
  if len s <? cap s then
    (<[ptr s + len s := x]> mem, mkslice (ptr s) (S (len s)) (cap s))
  else
    let n := S (len s) in
    (mem ++ slice_read mem s ++ x :: replicate (append_spare n) NameInfo.zero,
     mkslice (length mem) n (n + append_spare n)).

Record heap := mkheap {
  names : list NameInfo.t;
  privs : list PrivilegeDescriptor
}.

(** ** The descriptor types *)

Record Immutable := makeImmutable { SchemaDesc : SchemaDescriptor.t }.

Record Mutable := mkMutable {
  Mutable_Immutable : Immutable;
  ClusterVersion : option Immutable
}.

(** The embedded descriptor of a [Mutable], [desc.SchemaDescriptor]. *)
Definition working (desc : Mutable) : SchemaDescriptor.t :=
  SchemaDesc (Mutable_Immutable desc).

Definition with_working (desc : Mutable) (d : SchemaDescriptor.t) : Mutable :=
  mkMutable (makeImmutable d) (ClusterVersion desc).

(** The message a descriptor denotes in a heap: its scalar fields, the
    names its slice reaches and the privilege descriptor it points to. *)
Record message := mkmessage {
  m_Name : string;
  m_ID : descpb.ID;
  m_ParentID : descpb.ID;
  m_Privileges : option PrivilegeDescriptor;
  m_Version : descpb.DescriptorVersion;
  m_ModificationTime : hlc.Timestamp;
  m_DrainingNames : list NameInfo.t
}.

Definition load (h : heap) (d : SchemaDescriptor.t) : message :=
  mkmessage (SchemaDescriptor.Name d) (SchemaDescriptor.ID d)
    (SchemaDescriptor.ParentID d)
    (match SchemaDescriptor.Privileges d with
     | Some p => privs h !! p
     | None => None
     end)
    (SchemaDescriptor.Version d) (SchemaDescriptor.ModificationTime d)
    (slice_read (names h) (SchemaDescriptor.DrainingNames d)).

(** A descriptor whose references point into the heap. *)
Definition desc_ok (h : heap) (d : SchemaDescriptor.t) : Prop :=
  slice_ok (names h) (SchemaDescriptor.DrainingNames d)
  /\ match SchemaDescriptor.Privileges d with
     | Some p => p < length (privs h)
     | None => True
     end.

(** Modelled from the spec: [protoutil.Clone] is declared outside the
    package; the spec calls its result "a deep copy". The copy has the
    scalar fields of the original and fresh cells for what the original
    references. *)
Definition Clone (h : heap) (d : SchemaDescriptor.t) : heap * SchemaDescriptor.t :=
  let xs := slice_read (names h) (SchemaDescriptor.DrainingNames d) in
  let n := length xs in
  let s' := mkslice (length (names h)) n (n + clone_spare n) in
  let names' := names h ++ xs ++ replicate (clone_spare n) NameInfo.zero in
  let '(privs', p') :=
    match SchemaDescriptor.Privileges d with
    | Some p =>
        match privs h !! p with
        | Some v => (privs h ++ [v], Some (length (privs h)))
        | None => (privs h, None)
        end
    | None => (privs h, None)
    end in
  (mkheap names' privs',
   SchemaDescriptor.with_Privileges (SchemaDescriptor.with_DrainingNames d s') p').

(** ** Constructors *)

Definition NewImmutable (desc : SchemaDescriptor.t) : Immutable :=
  let m := makeImmutable desc in m.

Definition NewMutableExisting (h : heap) (desc : SchemaDescriptor.t)
  : heap * Mutable :=
  let '(h', d') := Clone h desc in
  (h', mkMutable (makeImmutable d') (Some (NewImmutable desc))).

Definition NewMutableCreatedSchemaDescriptor (desc : SchemaDescriptor.t) : Mutable :=
  mkMutable (makeImmutable desc) None.

(** ** Methods of [Immutable] *)

Definition GetParentSchemaID (desc : Immutable) : descpb.ID := RootNamespaceID.

Definition GetAuditMode (desc : Immutable) : descpb.TableDescriptor_AuditMode :=
  descpb.TableDescriptor_DISABLED.

Definition TypeName (desc : Immutable) : string := "schema".

Definition Adding (desc : Immutable) : bool := false.

Definition Offline (desc : Immutable) : bool := false.

Definition GetOfflineReason (desc : Immutable) : string := "".

(** ** Methods of [Mutable] *)

Definition SetDrainingNames (names : slice) (desc : Mutable) : Mutable :=
  with_working desc (SchemaDescriptor.with_DrainingNames (working desc) names).

Definition MaybeIncrementVersion (desc : Mutable) : Mutable :=
  match ClusterVersion desc with
  | None => desc
  | Some cv =>
      if (SchemaDescriptor.Version (working desc)
          =? uint32_add (SchemaDescriptor.Version (SchemaDesc cv)) 1)%Z
      then desc
      else
        let d := SchemaDescriptor.with_Version (working desc)
                   (uint32_add (SchemaDescriptor.Version (working desc)) 1) in
        with_working desc (SchemaDescriptor.with_ModificationTime d hlc.zero)
  end.

Definition OriginalName (desc : Mutable) : string :=
  match ClusterVersion desc with
  | None => ""
  | Some cv => SchemaDescriptor.Name (SchemaDesc cv)
  end.

Definition OriginalID (desc : Mutable) : descpb.ID :=
  match ClusterVersion desc with
  | None => descpb.InvalidID
  | Some cv => SchemaDescriptor.ID (SchemaDesc cv)
  end.

Definition OriginalVersion (desc : Mutable) : descpb.DescriptorVersion :=
  match ClusterVersion desc with
  | None => 0%Z
  | Some cv => SchemaDescriptor.Version (SchemaDesc cv)
  end.

Definition ImmutableCopy (h : heap) (desc : Mutable) : heap * Immutable :=
  let '(h', d') := Clone h (SchemaDesc (Mutable_Immutable desc)) in
  (h', NewImmutable d').

Definition IsNew (desc : Mutable) : bool :=
  match ClusterVersion desc with
  | None => true
  | Some _ => false
  end.

Definition SetName (name : string) (h : heap) (desc : Mutable) : heap * Mutable :=
  let d := working desc in
  let '(mem', s') :=
    append (names h) (SchemaDescriptor.DrainingNames d)
      (NameInfo.mk (SchemaDescriptor.ParentID d) RootNamespaceID
         (SchemaDescriptor.Name d)) in
  let d := SchemaDescriptor.with_DrainingNames d s' in
  let d := SchemaDescriptor.with_Name d name in
  (mkheap mem' (privs h), with_working desc d).

(** ** Sequences of mutations *)

Inductive call :=
  | CallSetName (name : string)
  | CallSetDrainingNames (names : slice)
  | CallMaybeIncrementVersion.

Definition step (st : heap * Mutable) (c : call) : heap * Mutable :=
  match c with
  | CallSetName name => SetName name (fst st) (snd st)
  | CallSetDrainingNames ns => (fst st, SetDrainingNames ns (snd st))
  | CallMaybeIncrementVersion => (fst st, MaybeIncrementVersion (snd st))
  end.

Definition run (cs : list call) (st : heap * Mutable) : heap * Mutable :=
  fold_left step cs st.

(** ** Reachable descriptors *)

(** What the package keeps true of a descriptor that has a baseline: its
    version is the baseline's or the one after it. *)
Definition version_in_step (desc : Mutable) : Prop :=
  match ClusterVersion desc with
  | None => True
  | Some cv =>
      SchemaDescriptor.Version (working desc)
        = SchemaDescriptor.Version (SchemaDesc cv)
      \/ SchemaDescriptor.Version (working desc)
        = uint32_add (SchemaDescriptor.Version (SchemaDesc cv)) 1
  end.

(** ** Snapshots and the working copy's storage *)

(** The cells [append] may write through [w] without reallocating, those
    between its length and its capacity, are none of the cells [sn]
    reads. *)
Definition spare_cells_apart (w sn : slice) : Prop :=
  cap w <= len w \/ len sn = 0
  \/ ptr w + cap w <= ptr sn \/ ptr sn + len sn <= ptr w + len w.

(** What keeps the descriptor [sn] out of reach of the working copy's
    slice [w] in the memory [mem]. *)
Definition out_of_reach (mem : list NameInfo.t) (w : slice)
    (sn : SchemaDescriptor.t) : Prop :=
  slice_ok mem w
  /\ ptr (SchemaDescriptor.DrainingNames sn)
     + len (SchemaDescriptor.DrainingNames sn) <= length mem
  /\ spare_cells_apart w (SchemaDescriptor.DrainingNames sn).

(** Every slice the calls [cs] hand to [SetDrainingNames] is one Go can
    hold when the call is made, and its spare cells are none of [sn]'s. *)
Fixpoint calls_apart (sn : slice) (cs : list call) (st : heap * Mutable) : Prop :=
  match cs with
  | [] => True
  | c :: cs' =>
      match c with
      | CallSetDrainingNames ns =>
          slice_ok (names (fst st)) ns /\ spare_cells_apart ns sn
      | _ => True
      end
      /\ calls_apart sn cs' (step st c)
  end.

(** ** The envelope *)

(** [descpb.Descriptor] with the one alternative of its union that the
    package builds. The envelope holds [&desc.SchemaDescriptor]: the
    descriptor itself, slice header and all, and no copy of it. *)
Inductive isDescriptor_Union :=
  | Descriptor_Schema (Schema : SchemaDescriptor.t).

Record Descriptor := mkDescriptor { Union : option isDescriptor_Union }.

Definition DescriptorProto (desc : Immutable) : Descriptor :=
  mkDescriptor (Some (Descriptor_Schema (SchemaDesc desc))).

(** ** Kinds of calls *)

Definition is_bump (c : call) : bool :=
  match c with CallMaybeIncrementVersion => true | _ => false end.

Definition is_set_draining (c : call) : bool :=
  match c with CallSetDrainingNames _ => true | _ => false end.

(** Every slice the calls [cs] hand to [SetDrainingNames] is one Go can
    hold when the call is made. *)
Fixpoint calls_ok (cs : list call) (st : heap * Mutable) : Prop :=
  match cs with
  | [] => True
  | c :: cs' =>
      match c with
      | CallSetDrainingNames ns => slice_ok (names (fst st)) ns
      | _ => True
      end
      /\ calls_ok cs' (step st c)
  end.

(** The entries a chain of renames leaves behind: renaming a schema of
    parent [parent] called [current] to each of [news] in turn retires
    [current] and then every new name but the last. *)
Fixpoint retired_names (parent : descpb.ID) (current : string)
    (news : list string) : list NameInfo.t :=
  match news with
  | [] => []
  | n :: news' =>
      NameInfo.mk parent RootNamespaceID current :: retired_names parent n news'
  end.

End Schemadesc.

(** * Descriptors to run the model on *)

Module Scenarios.

(** A privilege descriptor known by its owner only, root namespace 0, a
    runtime that doubles a slice when it grows it, and a [Clone] that
    allocates what it copies and no more. *)
#[local] Instance env : Environment := {|
  PrivilegeDescriptor := string;
  RootNamespaceID := 0%Z;
  append_spare := fun n => n;
  clone_spare := fun _ => 0
|}.

(** One privilege descriptor and no names allocated. *)
Definition h0 : heap := mkheap [] ["admin"%string].

(** [{Name: "s", ParentID: 7, Version: 3}], read from storage at some
    time, with ID 52 and its privileges. *)
Definition s_v3 : SchemaDescriptor.t :=
  SchemaDescriptor.mk "s" 52%Z 7%Z (Some 0) 3%Z (hlc.mk 1600000000%Z 2%Z) nil_slice.

Definition existing : heap * Mutable := NewMutableExisting h0 s_v3.

Definition renamed : heap * Mutable := run [CallSetName "s2"] existing.

Definition created : Mutable := NewMutableCreatedSchemaDescriptor s_v3.

(** A descriptor handed to [NewMutableExisting] with the ID field left
    at its zero value. *)
Definition s_without_id : SchemaDescriptor.t :=
  SchemaDescriptor.mk "s" descpb.InvalidID 7%Z None 3%Z hlc.zero nil_slice.

Definition existing_without_id : Mutable :=
  snd (NewMutableExisting h0 s_without_id).

(** A schema that was renamed before: one draining name, in the caller's
    one-cell array. *)
Definition h1 : heap := mkheap [NameInfo.mk 7%Z 0%Z "old"] ["admin"%string].

Definition s_drained : SchemaDescriptor.t :=
  SchemaDescriptor.mk "s" 52%Z 7%Z (Some 0) 3%Z hlc.zero (mkslice 0 1 1).

Definition drained : Mutable := snd (NewMutableExisting h1 s_drained).

Definition h2 : heap := fst (NewMutableExisting h1 s_drained).

(** The snapshot published from [drained], and the heap after. *)
Definition published : heap * Immutable := ImmutableCopy h2 drained.

(** Calls that keep to the working copy's and the caller's own slices. *)
Definition calls_own : list call :=
  [CallSetName "s2"; CallSetDrainingNames (mkslice 0 1 1);
   CallSetName "s3"; CallMaybeIncrementVersion].

(** Calls that hand the snapshot's slice, resliced to length zero
    ([snap.DrainingNames[:0]]), back to the working copy and rename. *)
Definition calls_aliasing : list call :=
  [CallSetDrainingNames
     (reslice (SchemaDescriptor.DrainingNames (SchemaDesc (snd published))) 0 0);
   CallSetName "s2"].

(** A working copy two versions ahead of its baseline, as a caller gets
    by assigning [Version] itself. *)
Definition drifted : Mutable :=
  mkMutable (makeImmutable (SchemaDescriptor.with_Version s_v3 5%Z))
    (Some (NewImmutable s_v3)).

(** A descriptor built by the caller over an array of two cells, the
    second one spare. *)
Definition h_spare : heap :=
  mkheap [NameInfo.mk 7%Z 0%Z "old"; NameInfo.zero] ["admin"%string].

Definition s_spare : SchemaDescriptor.t :=
  SchemaDescriptor.mk "s" 52%Z 7%Z (Some 0) 1%Z hlc.zero (mkslice 0 1 2).

End Scenarios.

(** * Properties *)

Section Properties.

Context {env : Environment}.


(** ** Arithmetic on versions *)

Lemma uint32_add_small (v : Z) :
  is_uint32 v -> v <> (uint32_modulus - 1)%Z -> uint32_add v 1 = (v + 1)%Z.
Proof.
  unfold is_uint32, uint32_add. intros Hv Hmax.
  apply Z.mod_small. lia.
Qed.

Lemma uint32_add_is_uint32 (a b : Z) : is_uint32 (uint32_add a b).
Proof.
  unfold is_uint32, uint32_add.
  apply Z.mod_pos_bound. reflexivity.
Qed.

(** ** The name validator *)

Lemma HasPrefix_starts_with (prefix s : string) :
  strings.HasPrefix s prefix = true <-> exists rest, s = (prefix ++ rest)%string.
Proof.
  unfold strings.HasPrefix. revert s.
  induction prefix as [|c prefix IH]; intros s.
  - split; [intros _; exists s; reflexivity | intros _; by destruct s].
  - destruct s as [|c' s]; simpl.
    + split; [discriminate | intros [rest Hrest]; discriminate].
    + destruct (ascii_dec c c') as [->|Hne].
      * rewrite IH. split; intros [rest Hrest]; exists rest.
        -- by rewrite Hrest.
        -- by injection Hrest.
      * split; [discriminate | intros [rest Hrest]; congruence].
Qed.

Lemma IsSchemaNameValid_reserved (name : string) :
  strings.HasPrefix name sessiondata.PgSchemaPrefix = true ->
  IsSchemaNameValid name
  = Some (errors_WithDetail
            (pgerror_Newf pgcode.ReservedName "unacceptable schema name %q" [name])
            reserved_prefix_detail).
Proof. unfold IsSchemaNameValid. by intros ->. Qed.

Lemma IsSchemaNameValid_other (name : string) :
  strings.HasPrefix name sessiondata.PgSchemaPrefix = false ->
  IsSchemaNameValid name = None.
Proof. unfold IsSchemaNameValid. by intros ->. Qed.

(** ** Frame lemmas for the mutations *)

Lemma ClusterVersion_SetName name h desc :
  ClusterVersion (snd (SetName name h desc)) = ClusterVersion desc.
Proof. unfold SetName. by destruct (append _ _ _). Qed.

Lemma Version_SetName name h desc :
  SchemaDescriptor.Version (working (snd (SetName name h desc)))
  = SchemaDescriptor.Version (working desc).
Proof. unfold SetName. by destruct (append _ _ _). Qed.

Lemma ClusterVersion_MaybeIncrementVersion desc :
  ClusterVersion (MaybeIncrementVersion desc) = ClusterVersion desc.
Proof.
  unfold MaybeIncrementVersion.
  destruct (ClusterVersion desc) as [cv|] eqn:Hcv; [|done].
  by destruct (_ =? _)%Z.
Qed.

Lemma ClusterVersion_step st c :
  ClusterVersion (snd (step st c)) = ClusterVersion (snd st).
Proof.
  destruct c; simpl.
  - apply ClusterVersion_SetName.
  - reflexivity.
  - apply ClusterVersion_MaybeIncrementVersion.
Qed.

Lemma run_cons c cs st : run (c :: cs) st = run cs (step st c).
Proof. reflexivity. Qed.

Lemma ClusterVersion_run cs st :
  ClusterVersion (snd (run cs st)) = ClusterVersion (snd st).
Proof.
  revert st. induction cs as [|c cs IH]; intros st; [done|].
  by rewrite run_cons, IH, ClusterVersion_step.
Qed.

(** ** The version stays within one step of the baseline *)

Lemma MaybeIncrementVersion_bumped desc cv :
  ClusterVersion desc = Some cv ->
  version_in_step desc ->
  SchemaDescriptor.Version (working (MaybeIncrementVersion desc))
  = uint32_add (SchemaDescriptor.Version (SchemaDesc cv)) 1.
Proof.
  unfold version_in_step, MaybeIncrementVersion. intros ->.
  destruct (Z.eqb_spec (SchemaDescriptor.Version (working desc))
              (uint32_add (SchemaDescriptor.Version (SchemaDesc cv)) 1))
    as [Heq|Hne]; [done|].
  intros [Hv|Hv]; [|done]. simpl. by rewrite Hv.
Qed.

Lemma version_in_step_step st c :
  version_in_step (snd st) -> version_in_step (snd (step st c)).
Proof.
  intros Hinv. unfold version_in_step.
  rewrite ClusterVersion_step.
  destruct (ClusterVersion (snd st)) as [cv|] eqn:Hcv; [|done].
  destruct c; simpl.
  - rewrite Version_SetName. unfold version_in_step in Hinv.
    by rewrite Hcv in Hinv.
  - unfold version_in_step in Hinv. by rewrite Hcv in Hinv.
  - right. by apply MaybeIncrementVersion_bumped.
Qed.

Lemma version_in_step_run cs st :
  version_in_step (snd st) -> version_in_step (snd (run cs st)).
Proof.
  revert st. induction cs as [|c cs IH]; intros st Hinv; [done|].
  rewrite run_cons. apply IH. by apply version_in_step_step.
Qed.

Lemma NewMutableExisting_baseline h desc :
  ClusterVersion (snd (NewMutableExisting h desc)) = Some (NewImmutable desc).
Proof.
  unfold NewMutableExisting.
  by destruct (Clone h desc).
Qed.

Lemma NewMutableExisting_Version h desc :
  SchemaDescriptor.Version (working (snd (NewMutableExisting h desc)))
  = SchemaDescriptor.Version desc.
Proof.
  unfold NewMutableExisting, Clone.
  by destruct (SchemaDescriptor.Privileges desc) as [p|];
    [destruct (privs h !! p)|].
Qed.

Lemma version_in_step_NewMutableExisting h desc :
  version_in_step (snd (NewMutableExisting h desc)).
Proof.
  unfold version_in_step.
  rewrite NewMutableExisting_baseline, NewMutableExisting_Version.
  by left.
Qed.

Lemma MaybeIncrementVersion_again desc :
  version_in_step desc ->
  MaybeIncrementVersion (MaybeIncrementVersion desc) = MaybeIncrementVersion desc.
Proof.
  intros Hinv.
  destruct (ClusterVersion desc) as [cv|] eqn:Hcv.
  - pose proof (MaybeIncrementVersion_bumped desc cv Hcv Hinv) as Hb.
    unfold MaybeIncrementVersion at 1.
    rewrite ClusterVersion_MaybeIncrementVersion, Hcv, Hb.
    by rewrite Z.eqb_refl.
  - unfold MaybeIncrementVersion. rewrite Hcv. simpl. by rewrite Hcv.
Qed.

Lemma MaybeIncrementVersion_iter desc n :
  version_in_step desc ->
  Nat.iter (S n) MaybeIncrementVersion desc = MaybeIncrementVersion desc.
Proof.
  intros Hinv. induction n as [|n IH]; [done|].
  change (Nat.iter (S (S n)) MaybeIncrementVersion desc)
    with (MaybeIncrementVersion (Nat.iter (S n) MaybeIncrementVersion desc)).
  rewrite IH. by apply MaybeIncrementVersion_again.
Qed.

(** ** Slices and [append] *)

Lemma slice_read_lookup (mem : list NameInfo.t) s i :
  slice_read mem s !! i
  = if decide (i < len s) then mem !! (ptr s + i) else None.
Proof.
  unfold slice_read. rewrite lookup_take.
  case_decide; [apply lookup_drop | done].
Qed.

Lemma slice_read_length (mem : list NameInfo.t) s :
  ptr s + len s <= length mem -> length (slice_read mem s) = len s.
Proof.
  intros Hin. unfold slice_read. rewrite length_take, length_drop. lia.
Qed.

(** Reading a slice depends on its own cells only. *)
Lemma slice_read_ext (mem mem' : list NameInfo.t) s :
  (forall i, ptr s <= i < ptr s + len s -> mem' !! i = mem !! i) ->
  slice_read mem' s = slice_read mem s.
Proof.
  intros Hsame. apply list_eq. intros i.
  rewrite !slice_read_lookup. case_decide; [|done].
  apply Hsame. lia.
Qed.

Lemma append_length (mem : list NameInfo.t) s x :
  length mem <= length (fst (append mem s x)).
Proof.
  unfold append. destruct (len s <? cap s); simpl.
  - by rewrite length_insert.
  - rewrite length_app. lia.
Qed.

Lemma append_ok (mem : list NameInfo.t) s x :
  slice_ok mem s -> slice_ok (fst (append mem s x)) (snd (append mem s x)).
Proof.
  unfold slice_ok, append. intros [Hlen Hcap].
  destruct (Nat.ltb_spec (len s) (cap s)) as [Hlt|Hge]; simpl.
  - rewrite length_insert. lia.
  - rewrite !length_app, slice_read_length by lia. simpl.
    rewrite length_replicate. lia.
Qed.

(** [append] writes one cell of the memory it was given, and that only
    when it appends in place. *)
Lemma append_frame (mem : list NameInfo.t) s x i :
  i < length mem ->
  (len s < cap s -> i <> ptr s + len s) ->
  fst (append mem s x) !! i = mem !! i.
Proof.
  unfold append. intros Hi Hne.
  destruct (Nat.ltb_spec (len s) (cap s)) as [Hlt|Hge]; simpl.
  - apply list_lookup_insert_ne. intros Heq. by apply Hne.
  - by apply lookup_app_l.
Qed.

(** The slice [append] returns holds the old elements followed by [x]. *)
Lemma append_read (mem : list NameInfo.t) s x :
  slice_ok mem s ->
  slice_read (fst (append mem s x)) (snd (append mem s x))
  = slice_read mem s ++ [x].
Proof.
  unfold slice_ok, append. intros [Hlen Hcap].
  destruct (Nat.ltb_spec (len s) (cap s)) as [Hlt|Hge]; simpl.
  - apply list_eq. intros i. rewrite slice_read_lookup. simpl.
    destruct (decide (i < len s)) as [Hi|Hi].
    + rewrite decide_True by lia.
      rewrite lookup_app_l by (rewrite slice_read_length; lia).
      rewrite slice_read_lookup, decide_True by done.
      apply list_lookup_insert_ne. lia.
    + rewrite lookup_app_r by (rewrite slice_read_length; lia).
      rewrite slice_read_length by lia.
      destruct (decide (i = len s)) as [->|Hi'].
      * rewrite decide_True by lia. rewrite Nat.sub_diag. simpl.
        apply list_lookup_insert_eq. lia.
      * rewrite decide_False by lia.
        destruct (i - len s) as [|k] eqn:Hk; [lia | done].
  - unfold slice_read at 1. simpl.
    rewrite drop_app_length.
    replace (slice_read mem s ++ x :: replicate (append_spare (S (len s))) NameInfo.zero)
      with ((slice_read mem s ++ [x])
              ++ replicate (append_spare (S (len s))) NameInfo.zero)
      by (by rewrite <- app_assoc).
    apply take_app_length'.
    rewrite length_app, slice_read_length by lia. simpl. lia.
Qed.

(** ** [Clone] *)

Lemma Clone_scalars h d :
  let d' := snd (Clone h d) in
  SchemaDescriptor.Name d' = SchemaDescriptor.Name d
  /\ SchemaDescriptor.ID d' = SchemaDescriptor.ID d
  /\ SchemaDescriptor.ParentID d' = SchemaDescriptor.ParentID d
  /\ SchemaDescriptor.Version d' = SchemaDescriptor.Version d
  /\ SchemaDescriptor.ModificationTime d' = SchemaDescriptor.ModificationTime d.
Proof.
  unfold Clone.
  by destruct (SchemaDescriptor.Privileges d) as [p|];
    [destruct (privs h !! p)|].
Qed.

(** The copy's slice lies in cells that did not exist before the call. *)
Lemma Clone_DrainingNames h d :
  SchemaDescriptor.DrainingNames (snd (Clone h d))
  = mkslice (length (names h))
      (length (slice_read (names h) (SchemaDescriptor.DrainingNames d)))
      (length (slice_read (names h) (SchemaDescriptor.DrainingNames d))
       + clone_spare
           (length (slice_read (names h) (SchemaDescriptor.DrainingNames d)))).
Proof.
  unfold Clone.
  by destruct (SchemaDescriptor.Privileges d) as [p|];
    [destruct (privs h !! p)|].
Qed.

Lemma Clone_names h d :
  names (fst (Clone h d))
  = names h ++ slice_read (names h) (SchemaDescriptor.DrainingNames d)
      ++ replicate
           (clone_spare
              (length (slice_read (names h) (SchemaDescriptor.DrainingNames d))))
           NameInfo.zero.
Proof.
  unfold Clone.
  by destruct (SchemaDescriptor.Privileges d) as [p|];
    [destruct (privs h !! p)|].
Qed.

(** A deep copy denotes the message of its original. *)
Lemma Clone_load h d :
  desc_ok h d -> load (fst (Clone h d)) (snd (Clone h d)) = load h d.
Proof.
  intros [Hslice Hpriv].
  pose proof (Clone_scalars h d) as (HN & HI & HP & HV & HM).
  unfold load. rewrite HN, HI, HP, HV, HM.
  rewrite Clone_DrainingNames, Clone_names.
  f_equal.
  - unfold Clone.
    destruct (SchemaDescriptor.Privileges d) as [p|]; [|done].
    destruct (privs h !! p) as [v|] eqn:Hp; simpl.
    + rewrite lookup_app_r by done. by rewrite Nat.sub_diag.
    + done.
  - unfold slice_read at 1. simpl.
    rewrite drop_app_length. by apply take_app_length'.
Qed.

Lemma Clone_ok h d : desc_ok (fst (Clone h d)) (snd (Clone h d)).
Proof.
  unfold desc_ok. rewrite Clone_DrainingNames, Clone_names.
  split.
  - unfold slice_ok. simpl.
    rewrite !length_app, length_replicate. lia.
  - unfold Clone.
    destruct (SchemaDescriptor.Privileges d) as [p|]; [|done].
    destruct (privs h !! p) as [v|] eqn:Hp; simpl; [|done].
    rewrite length_app. simpl. lia.
Qed.

(** [Clone] only allocates: descriptors that were there keep their
    message. *)
Lemma Clone_frame h d d0 :
  desc_ok h d0 -> load (fst (Clone h d)) d0 = load h d0.
Proof.
  intros [[Hlen Hcap] Hpriv]. unfold load. f_equal.
  - destruct (SchemaDescriptor.Privileges d0) as [p0|]; [|done].
    unfold Clone.
    destruct (SchemaDescriptor.Privileges d) as [p|]; [|done].
    destruct (privs h !! p) as [v|]; simpl; [|done].
    by apply lookup_app_l.
  - apply slice_read_ext. intros i Hi.
    rewrite Clone_names. apply lookup_app_l. lia.
Qed.

(** ** [SetName] *)

Lemma SetName_unfold name h desc :
  SetName name h desc
  = (mkheap
       (fst (append (names h) (SchemaDescriptor.DrainingNames (working desc))
               (NameInfo.mk (SchemaDescriptor.ParentID (working desc))
                  RootNamespaceID (SchemaDescriptor.Name (working desc)))))
       (privs h),
     with_working desc
       (SchemaDescriptor.with_Name
          (SchemaDescriptor.with_DrainingNames (working desc)
             (snd (append (names h) (SchemaDescriptor.DrainingNames (working desc))
                     (NameInfo.mk (SchemaDescriptor.ParentID (working desc))
                        RootNamespaceID (SchemaDescriptor.Name (working desc))))))
          name)).
Proof. unfold SetName. by destruct (append _ _ _). Qed.

Lemma privs_step st c : privs (fst (step st c)) = privs (fst st).
Proof. destruct c; simpl; [|done..]. by rewrite SetName_unfold. Qed.

Lemma privs_run cs st : privs (fst (run cs st)) = privs (fst st).
Proof.
  revert st. induction cs as [|c cs IH]; intros st; [done|].
  by rewrite run_cons, IH, privs_step.
Qed.

(** ** A descriptor out of reach keeps its message *)

Lemma SetName_out_of_reach name h desc sn :
  out_of_reach (names h) (SchemaDescriptor.DrainingNames (working desc)) sn ->
  load (fst (SetName name h desc)) sn = load h sn
  /\ out_of_reach (names (fst (SetName name h desc)))
       (SchemaDescriptor.DrainingNames (working (snd (SetName name h desc)))) sn.
Proof.
  intros (Hok & Hin & Hapart). rewrite SetName_unfold. simpl.
  set (w := SchemaDescriptor.DrainingNames (working desc)) in *.
  set (x := NameInfo.mk _ _ _).
  split.
  - unfold load. simpl. f_equal.
    apply slice_read_ext. intros i Hi.
    apply append_frame; [lia|].
    intros Hlt. unfold spare_cells_apart in Hapart. lia.
  - split; [by apply append_ok|].
    split; [pose proof (append_length (names h) w x); lia|].
    destruct Hok as [Hlen Hcap].
    unfold spare_cells_apart in *. unfold append.
    destruct (Nat.ltb_spec (len w) (cap w)) as [Hlt|Hge]; simpl; lia.
Qed.

Lemma step_out_of_reach st c sn :
  out_of_reach (names (fst st))
    (SchemaDescriptor.DrainingNames (working (snd st))) sn ->
  calls_apart (SchemaDescriptor.DrainingNames sn) [c] st ->
  load (fst (step st c)) sn = load (fst st) sn
  /\ out_of_reach (names (fst (step st c)))
       (SchemaDescriptor.DrainingNames (working (snd (step st c)))) sn.
Proof.
  intros Hout [Hc _]. destruct c as [name|ns|]; simpl.
  - by apply SetName_out_of_reach.
  - destruct Hc as [Hns Hap], Hout as (_ & Hin & _).
    split; [done|]. unfold out_of_reach. auto.
  - split; [done|].
    replace (SchemaDescriptor.DrainingNames
               (working (MaybeIncrementVersion (snd st))))
      with (SchemaDescriptor.DrainingNames (working (snd st))); [done|].
    unfold MaybeIncrementVersion.
    destruct (ClusterVersion (snd st)); [|done]. by destruct (_ =? _)%Z.
Qed.

Lemma run_out_of_reach cs st sn :
  out_of_reach (names (fst st))
    (SchemaDescriptor.DrainingNames (working (snd st))) sn ->
  calls_apart (SchemaDescriptor.DrainingNames sn) cs st ->
  load (fst (run cs st)) sn = load (fst st) sn.
Proof.
  revert st. induction cs as [|c cs IH]; intros st Hout Hcs; [done|].
  destruct Hcs as [Hc Hcs].
  destruct (step_out_of_reach st c sn Hout) as [Hload Hout'].
  { by split. }
  by rewrite run_cons, IH, Hload.
Qed.

(** A fresh copy is out of reach of the slice it was copied from. *)
Lemma Clone_out_of_reach h d w :
  slice_ok (names h) w ->
  out_of_reach (names (fst (Clone h d))) w (snd (Clone h d)).
Proof.
  intros [Hlen Hcap]. unfold out_of_reach.
  rewrite Clone_DrainingNames, Clone_names. simpl.
  unfold slice_ok, spare_cells_apart. simpl.
  rewrite !length_app, length_replicate. lia.
Qed.

(** A later [ImmutableCopy] only allocates: the snapshots published
    before it keep their message. *)
Lemma ImmutableCopy_frame h desc d0 :
  desc_ok h d0 -> load (fst (ImmutableCopy h desc)) d0 = load h d0.
Proof.
  intros Hok. unfold ImmutableCopy.
  pose proof (Clone_frame h (SchemaDesc (Mutable_Immutable desc)) d0 Hok) as Hf.
  by destruct (Clone _ _).
Qed.

(** * The claims *)

(** C1. [SetName] appends exactly one entry to [DrainingNames], the tuple
    of the current [ParentID], the root namespace and the name the
    descriptor had before the call, and then sets [Name] to the new name;
    the entries that were there stay, in their order, and nothing else
    of the descriptor or of its baseline changes. *)
Theorem SetName_appends_draining_name name h desc :
  slice_ok (names h) (SchemaDescriptor.DrainingNames (working desc)) ->
  m_DrainingNames (load (fst (SetName name h desc))
                     (working (snd (SetName name h desc))))
  = m_DrainingNames (load h (working desc))
      ++ [NameInfo.mk (SchemaDescriptor.ParentID (working desc))
            RootNamespaceID (SchemaDescriptor.Name (working desc))]
  /\ SchemaDescriptor.Name (working (snd (SetName name h desc))) = name
  /\ SchemaDescriptor.ID (working (snd (SetName name h desc)))
     = SchemaDescriptor.ID (working desc)
  /\ SchemaDescriptor.ParentID (working (snd (SetName name h desc)))
     = SchemaDescriptor.ParentID (working desc)
  /\ SchemaDescriptor.Version (working (snd (SetName name h desc)))
     = SchemaDescriptor.Version (working desc)
  /\ SchemaDescriptor.ModificationTime (working (snd (SetName name h desc)))
     = SchemaDescriptor.ModificationTime (working desc)
  /\ m_Privileges (load (fst (SetName name h desc))
                     (working (snd (SetName name h desc))))
     = m_Privileges (load h (working desc))
  /\ ClusterVersion (snd (SetName name h desc)) = ClusterVersion desc.
Proof.
  intros Hok. rewrite SetName_unfold. simpl.
  split; [|done].
  by apply append_read.
Qed.

(** C2. [MaybeIncrementVersion] is idempotent within a transaction: on a
    descriptor made by [NewMutableExisting] and mutated by any calls since,
    [n >= 1] calls leave the descriptor, and so its [Version], as one call
    does: the version after the baseline's. *)
Theorem MaybeIncrementVersion_idempotent h desc cs n :
  1 <= n ->
  SchemaDescriptor.Version
    (working (Nat.iter n MaybeIncrementVersion
                (snd (run cs (NewMutableExisting h desc)))))
  = SchemaDescriptor.Version
      (working (MaybeIncrementVersion
                  (snd (run cs (NewMutableExisting h desc)))))
  /\ Nat.iter n MaybeIncrementVersion (snd (run cs (NewMutableExisting h desc)))
     = MaybeIncrementVersion (snd (run cs (NewMutableExisting h desc)))
  /\ SchemaDescriptor.Version
       (working (Nat.iter n MaybeIncrementVersion
                   (snd (run cs (NewMutableExisting h desc)))))
     = uint32_add (SchemaDescriptor.Version desc) 1.
Proof.
  intros Hn. destruct n as [|n]; [lia|].
  assert (version_in_step (snd (run cs (NewMutableExisting h desc)))) as Hinv.
  { apply version_in_step_run, version_in_step_NewMutableExisting. }
  rewrite MaybeIncrementVersion_iter by done.
  split; [done|]. split; [done|].
  apply (MaybeIncrementVersion_bumped _ (NewImmutable desc)); [|done].
  by rewrite ClusterVersion_run, NewMutableExisting_baseline.
Qed.

(** C3. On a descriptor with a baseline whose [Version] is not already the
    baseline's [Version + 1], [MaybeIncrementVersion] sets [Version] to
    [Version + 1] (the [uint32] sum, which is the integer sum below the
    largest [uint32]) and resets [ModificationTime] to the zero
    timestamp. *)
Theorem MaybeIncrementVersion_bumps desc cv :
  ClusterVersion desc = Some cv ->
  SchemaDescriptor.Version (working desc)
  <> uint32_add (SchemaDescriptor.Version (SchemaDesc cv)) 1 ->
  SchemaDescriptor.Version (working (MaybeIncrementVersion desc))
  = uint32_add (SchemaDescriptor.Version (working desc)) 1
  /\ SchemaDescriptor.ModificationTime (working (MaybeIncrementVersion desc))
     = hlc.zero
  /\ (is_uint32 (SchemaDescriptor.Version (working desc)) ->
      SchemaDescriptor.Version (working desc) <> (uint32_modulus - 1)%Z ->
      SchemaDescriptor.Version (working (MaybeIncrementVersion desc))
      = (SchemaDescriptor.Version (working desc) + 1)%Z).
Proof.
  intros Hcv Hne. unfold MaybeIncrementVersion. rewrite Hcv.
  destruct (Z.eqb_spec (SchemaDescriptor.Version (working desc))
              (uint32_add (SchemaDescriptor.Version (SchemaDesc cv)) 1))
    as [Heq|_]; [done|].
  simpl. split; [done|]. split; [done|].
  apply uint32_add_small.
Qed.

(** C4. [IsSchemaNameValid] fails exactly on the names that start with
    "pg_", with an error of code [ReservedName] whose one detail is the
    text that the prefix is reserved for system schemas; on every other
    name it returns nil. *)
Theorem IsSchemaNameValid_iff_reserved_prefix name :
  ((exists rest, name = (sessiondata.PgSchemaPrefix ++ rest)%string)
   <-> exists err,
         IsSchemaNameValid name = Some err
         /\ GetPGCode err = pgcode.ReservedName
         /\ GetAllDetails err = [reserved_prefix_detail])
  /\ (~ (exists rest, name = (sessiondata.PgSchemaPrefix ++ rest)%string)
      <-> IsSchemaNameValid name = None).
Proof.
  rewrite <- HasPrefix_starts_with.
  destruct (strings.HasPrefix name sessiondata.PgSchemaPrefix) eqn:Hp.
  - rewrite (IsSchemaNameValid_reserved name Hp). split.
    + split; [intros _; eexists; by repeat split | done].
    + split; [done | discriminate].
  - rewrite (IsSchemaNameValid_other name Hp). split.
    + split; [discriminate | by intros (err & Herr & _)].
    + split; [done | discriminate].
Qed.

(** C5. On a descriptor made by [NewMutableCreatedSchemaDescriptor],
    straight away or after any calls, [MaybeIncrementVersion] returns the
    descriptor it was given: no field changes, [Version] and
    [ModificationTime] included. *)
Theorem MaybeIncrementVersion_created_noop h desc cs :
  MaybeIncrementVersion (NewMutableCreatedSchemaDescriptor desc)
  = NewMutableCreatedSchemaDescriptor desc
  /\ MaybeIncrementVersion
       (snd (run cs (h, NewMutableCreatedSchemaDescriptor desc)))
     = snd (run cs (h, NewMutableCreatedSchemaDescriptor desc)).
Proof.
  split; [done|].
  unfold MaybeIncrementVersion. by rewrite ClusterVersion_run.
Qed.

(** C6, as the code has it. [IsNew] is true exactly when there is no
    baseline. Without a baseline [OriginalID] is the invalid ID,
    [OriginalName] the empty string and [OriginalVersion] 0; with one,
    each is the baseline's field. So [OriginalID] is the invalid ID
    exactly when there is no baseline or the baseline's own ID is the
    invalid one. *)
Theorem IsNew_and_originals desc :
  (IsNew desc = true <-> ClusterVersion desc = None)
  /\ (ClusterVersion desc = None ->
      OriginalID desc = descpb.InvalidID
      /\ OriginalName desc = EmptyString
      /\ OriginalVersion desc = 0%Z)
  /\ (forall cv, ClusterVersion desc = Some cv ->
      OriginalID desc = SchemaDescriptor.ID (SchemaDesc cv)
      /\ OriginalName desc = SchemaDescriptor.Name (SchemaDesc cv)
      /\ OriginalVersion desc = SchemaDescriptor.Version (SchemaDesc cv))
  /\ (OriginalID desc = descpb.InvalidID
      <-> IsNew desc = true
          \/ exists cv, ClusterVersion desc = Some cv
                        /\ SchemaDescriptor.ID (SchemaDesc cv) = descpb.InvalidID).
Proof.
  unfold IsNew, OriginalID, OriginalName, OriginalVersion.
  destruct (ClusterVersion desc) as [cv|].
  - split; [done|]. split; [done|]. split.
    + by intros ? [= <-].
    + split.
      * intros Hid. right. by exists cv.
      * by intros [?|(? & [= <-] & ?)].
  - split; [done|]. split; [done|]. split; [done|].
    split; [by left | done].
Qed.

(** C7, as the code has it. [ImmutableCopy] returns a snapshot that denotes
    the message the working copy denotes when it is called, and the
    snapshot goes on denoting it after any later [SetName],
    [SetDrainingNames] and [MaybeIncrementVersion] calls, as long as no
    slice handed to [SetDrainingNames] has spare capacity among the cells
    the snapshot's [DrainingNames] occupies. *)
Theorem ImmutableCopy_snapshot_stable h desc cs :
  desc_ok h (working desc) ->
  calls_apart
    (SchemaDescriptor.DrainingNames (SchemaDesc (snd (ImmutableCopy h desc))))
    cs (fst (ImmutableCopy h desc), desc) ->
  load (fst (ImmutableCopy h desc)) (SchemaDesc (snd (ImmutableCopy h desc)))
  = load h (working desc)
  /\ load (fst (run cs (fst (ImmutableCopy h desc), desc)))
       (SchemaDesc (snd (ImmutableCopy h desc)))
     = load h (working desc).
Proof.
  intros Hok Hcs.
  assert (ImmutableCopy h desc
          = (fst (Clone h (working desc)),
             makeImmutable (snd (Clone h (working desc))))) as Hcopy.
  { unfold ImmutableCopy, working. by destruct (Clone _ _). }
  rewrite Hcopy in *. simpl in *.
  split; [by apply Clone_load|].
  rewrite run_out_of_reach; simpl; [by apply Clone_load | | done].
  apply Clone_out_of_reach. by destruct Hok.
Qed.

(** C8. On every [Immutable], whatever its descriptor holds,
    [GetParentSchemaID] is the root namespace ID, [GetAuditMode] is
    disabled, [TypeName] is "schema", [Adding] and [Offline] are false and
    [GetOfflineReason] is the empty string. *)
Theorem Immutable_fixed_accessors (desc : Immutable) :
  GetParentSchemaID desc = RootNamespaceID
  /\ GetAuditMode desc = descpb.TableDescriptor_DISABLED
  /\ TypeName desc = "schema"%string
  /\ Adding desc = false
  /\ Offline desc = false
  /\ GetOfflineReason desc = EmptyString.
Proof. by repeat split. Qed.

(** C9. No sequence of [SetName], [SetDrainingNames] and
    [MaybeIncrementVersion] calls changes the baseline: [ClusterVersion],
    and with it [OriginalName], [OriginalID] and [OriginalVersion], are
    after the calls what they were before. *)
Theorem mutations_keep_baseline cs st :
  ClusterVersion (snd (run cs st)) = ClusterVersion (snd st)
  /\ OriginalName (snd (run cs st)) = OriginalName (snd st)
  /\ OriginalID (snd (run cs st)) = OriginalID (snd st)
  /\ OriginalVersion (snd (run cs st)) = OriginalVersion (snd st).
Proof.
  unfold OriginalName, OriginalID, OriginalVersion.
  by rewrite ClusterVersion_run.
Qed.

(** C10. After [NewMutableExisting] and any sequence of [SetName],
    [SetDrainingNames] and [MaybeIncrementVersion] calls, [Version] is
    [OriginalVersion()] or [OriginalVersion() + 1] (the [uint32] sum), and
    [OriginalVersion()] is the version of the descriptor the constructor
    was given. *)
Theorem version_within_one_of_baseline h desc cs :
  OriginalVersion (snd (run cs (NewMutableExisting h desc)))
  = SchemaDescriptor.Version desc
  /\ (SchemaDescriptor.Version
        (working (snd (run cs (NewMutableExisting h desc))))
      = OriginalVersion (snd (run cs (NewMutableExisting h desc)))
      \/ SchemaDescriptor.Version
           (working (snd (run cs (NewMutableExisting h desc))))
         = uint32_add
             (OriginalVersion (snd (run cs (NewMutableExisting h desc)))) 1).
Proof.
  pose proof (version_in_step_run cs _
                (version_in_step_NewMutableExisting h desc)) as Hinv.
  unfold version_in_step, OriginalVersion in *.
  rewrite ClusterVersion_run, NewMutableExisting_baseline in *.
  by split.
Qed.

End Properties.

(** * Further properties of the package *)

Section MoreProperties.

Context {env : Environment}.

(** ** Helpers *)

Lemma uint32_add_one_moves (v : Z) : uint32_add v 1 <> v.
Proof.
  unfold uint32_add, uint32_modulus. intros Heq.
  assert (0 <= (v + 1) mod 2 ^ 32 < 2 ^ 32)%Z as Hb
    by (apply Z.mod_pos_bound; reflexivity).
  destruct (Z.eq_dec v (2 ^ 32 - 1)%Z) as [->|Hne].
  - vm_compute in Heq. discriminate Heq.
  - rewrite Z.mod_small in Heq by lia. lia.
Qed.

Lemma NewMutableExisting_unfold h desc :
  NewMutableExisting h desc
  = (fst (Clone h desc),
     mkMutable (makeImmutable (snd (Clone h desc))) (Some (NewImmutable desc))).
Proof. unfold NewMutableExisting. by destruct (Clone h desc). Qed.

Lemma ImmutableCopy_unfold h desc :
  ImmutableCopy h desc
  = (fst (Clone h (working desc)), makeImmutable (snd (Clone h (working desc)))).
Proof. unfold ImmutableCopy, working. by destruct (Clone _ _). Qed.

Lemma step_identity st c :
  SchemaDescriptor.ID (working (snd (step st c)))
  = SchemaDescriptor.ID (working (snd st))
  /\ SchemaDescriptor.ParentID (working (snd (step st c)))
     = SchemaDescriptor.ParentID (working (snd st))
  /\ SchemaDescriptor.Privileges (working (snd (step st c)))
     = SchemaDescriptor.Privileges (working (snd st)).
Proof.
  destruct c as [name|ns|]; simpl.
  - by rewrite SetName_unfold.
  - done.
  - unfold MaybeIncrementVersion.
    destruct (ClusterVersion (snd st)); [|done]. by destruct (_ =? _)%Z.
Qed.

Lemma step_keeps_version st c :
  is_bump c = false ->
  SchemaDescriptor.Version (working (snd (step st c)))
  = SchemaDescriptor.Version (working (snd st))
  /\ SchemaDescriptor.ModificationTime (working (snd (step st c)))
     = SchemaDescriptor.ModificationTime (working (snd st)).
Proof.
  destruct c as [name|ns|]; simpl; intros Hc; [|done|discriminate].
  by rewrite SetName_unfold.
Qed.

(** ** The constructors *)


(** ** [MaybeIncrementVersion] *)

(** X2. [MaybeIncrementVersion] touches [Version] and [ModificationTime]
    only: the name, the IDs, the privileges, the draining names and the
    baseline stay; and when it leaves [Version] as it was, it leaves the
    whole descriptor as it was. *)
Theorem MaybeIncrementVersion_frame desc :
  SchemaDescriptor.Name (working (MaybeIncrementVersion desc))
  = SchemaDescriptor.Name (working desc)
  /\ SchemaDescriptor.ID (working (MaybeIncrementVersion desc))
     = SchemaDescriptor.ID (working desc)
  /\ SchemaDescriptor.ParentID (working (MaybeIncrementVersion desc))
     = SchemaDescriptor.ParentID (working desc)
  /\ SchemaDescriptor.Privileges (working (MaybeIncrementVersion desc))
     = SchemaDescriptor.Privileges (working desc)
  /\ SchemaDescriptor.DrainingNames (working (MaybeIncrementVersion desc))
     = SchemaDescriptor.DrainingNames (working desc)
  /\ ClusterVersion (MaybeIncrementVersion desc) = ClusterVersion desc
  /\ (SchemaDescriptor.Version (working (MaybeIncrementVersion desc))
      = SchemaDescriptor.Version (working desc)
      <-> MaybeIncrementVersion desc = desc).
Proof.
  unfold MaybeIncrementVersion.
  destruct (ClusterVersion desc) as [cv|] eqn:Hcv; [|done].
  destruct (_ =? _)%Z; [done|]. simpl.
  repeat (split; [done|]). split.
  - intros Heq. by apply uint32_add_one_moves in Heq.
  - intros Heq. apply (f_equal (fun m => SchemaDescriptor.Version (working m))) in Heq.
    simpl in Heq. by apply uint32_add_one_moves in Heq.
Qed.

(** X3. The guard of [MaybeIncrementVersion] is an equality with the
    baseline's [Version + 1] and nothing more: on a working copy that is
    neither at that version nor one below it, two calls bump twice. *)
Theorem MaybeIncrementVersion_drift desc cv :
  ClusterVersion desc = Some cv ->
  SchemaDescriptor.Version (working desc)
  <> uint32_add (SchemaDescriptor.Version (SchemaDesc cv)) 1 ->
  uint32_add (SchemaDescriptor.Version (working desc)) 1
  <> uint32_add (SchemaDescriptor.Version (SchemaDesc cv)) 1 ->
  SchemaDescriptor.Version
    (working (MaybeIncrementVersion (MaybeIncrementVersion desc)))
  = uint32_add (uint32_add (SchemaDescriptor.Version (working desc)) 1) 1.
Proof.
  intros Hcv Hne1 Hne2.
  unfold MaybeIncrementVersion at 2. rewrite Hcv.
  destruct (Z.eqb_spec (SchemaDescriptor.Version (working desc))
              (uint32_add (SchemaDescriptor.Version (SchemaDesc cv)) 1))
    as [Heq|_]; [done|].
  unfold MaybeIncrementVersion. simpl. rewrite Hcv.
  destruct (Z.eqb_spec (uint32_add (SchemaDescriptor.Version (working desc)) 1)
              (uint32_add (SchemaDescriptor.Version (SchemaDesc cv)) 1))
    as [Heq|_]; [done|].
  reflexivity.
Qed.

(** ** The mutations together *)

(** X4. No sequence of mutations changes the descriptor's [ID], its
    [ParentID] or the privileges it points to. *)
Theorem mutations_keep_identity cs st :
  SchemaDescriptor.ID (working (snd (run cs st)))
  = SchemaDescriptor.ID (working (snd st))
  /\ SchemaDescriptor.ParentID (working (snd (run cs st)))
     = SchemaDescriptor.ParentID (working (snd st))
  /\ SchemaDescriptor.Privileges (working (snd (run cs st)))
     = SchemaDescriptor.Privileges (working (snd st))
  /\ privs (fst (run cs st)) = privs (fst st).
Proof.
  revert st. induction cs as [|c cs IH]; intros st; [done|].
  rewrite run_cons.
  destruct (IH (step st c)) as (HI & HP & HV & Hh).
  destruct (step_identity st c) as (HI' & HP' & HV').
  rewrite HI, HP, HV, Hh, HI', HP', HV'.
  by rewrite privs_step.
Qed.

(** X5. [Version] and [ModificationTime] change through
    [MaybeIncrementVersion] only: renames and [SetDrainingNames] calls
    leave both as they were. *)
Theorem version_changes_by_bump_only cs st :
  forallb (fun c => negb (is_bump c)) cs = true ->
  SchemaDescriptor.Version (working (snd (run cs st)))
  = SchemaDescriptor.Version (working (snd st))
  /\ SchemaDescriptor.ModificationTime (working (snd (run cs st)))
     = SchemaDescriptor.ModificationTime (working (snd st)).
Proof.
  revert st. induction cs as [|c cs IH]; intros st Hcs; [done|].
  simpl in Hcs. apply andb_prop in Hcs as [Hc Hcs].
  rewrite run_cons.
  destruct (IH (step st c) Hcs) as (HV & HT).
  destruct (step_keeps_version st c) as (HV' & HT').
  { by destruct (is_bump c). }
  by rewrite HV, HT, HV', HT'.
Qed.

(** ** References stay valid *)

Lemma step_desc_ok st c :
  desc_ok (fst st) (working (snd st)) ->
  calls_ok [c] st ->
  desc_ok (fst (step st c)) (working (snd (step st c)))
  /\ length (names (fst st)) <= length (names (fst (step st c))).
Proof.
  intros [Hslice Hpriv] [Hc _]. destruct c as [name|ns|]; simpl.
  - rewrite SetName_unfold. simpl. split; [split|].
    + by apply append_ok.
    + done.
    + apply append_length.
  - split; [|done]. by split.
  - split; [|done]. unfold MaybeIncrementVersion.
    destruct (ClusterVersion (snd st)); [|done].
    by destruct (_ =? _)%Z.
Qed.

(** X6. The mutations keep the working copy's references inside the
    heap, as long as every slice handed to [SetDrainingNames] lies inside
    it; and the memory of names never shrinks. *)
Theorem mutations_keep_references_valid cs st :
  desc_ok (fst st) (working (snd st)) ->
  calls_ok cs st ->
  desc_ok (fst (run cs st)) (working (snd (run cs st)))
  /\ length (names (fst st)) <= length (names (fst (run cs st))).
Proof.
  revert st. induction cs as [|c cs IH]; intros st Hok Hcs; [done|].
  destruct Hcs as [Hc Hcs]. rewrite run_cons.
  destruct (step_desc_ok st c Hok) as [Hok' Hlen]; [done|].
  destruct (IH (step st c) Hok' Hcs) as [Hok'' Hlen'].
  split; [done | lia].
Qed.

(** ** Chains of renames *)

(** X7. Renaming a descriptor to each of [news] in turn appends one
    draining name for each, in the order of the calls: first the name the
    descriptor had, then every new name but the last, all under the
    descriptor's [ParentID] and the root namespace. The last new name is
    the descriptor's name. *)
Theorem renames_retire_names_in_order news st :
  slice_ok (names (fst st)) (SchemaDescriptor.DrainingNames (working (snd st))) ->
  m_DrainingNames
    (load (fst (run (map CallSetName news) st))
       (working (snd (run (map CallSetName news) st))))
  = m_DrainingNames (load (fst st) (working (snd st)))
      ++ retired_names (SchemaDescriptor.ParentID (working (snd st)))
           (SchemaDescriptor.Name (working (snd st))) news
  /\ SchemaDescriptor.Name (working (snd (run (map CallSetName news) st)))
     = default (SchemaDescriptor.Name (working (snd st))) (last news).
Proof.
  revert st. induction news as [|n news IH]; intros st Hok.
  - simpl. by rewrite app_nil_r.
  - change (map CallSetName (n :: news))
      with (CallSetName n :: map CallSetName news).
    rewrite run_cons.
    assert (slice_ok (names (fst (step st (CallSetName n))))
              (SchemaDescriptor.DrainingNames
                 (working (snd (step st (CallSetName n)))))) as Hok'.
    { simpl. rewrite SetName_unfold. simpl. by apply append_ok. }
    destruct (IH _ Hok') as [Hnames Hname].
    rewrite Hnames, Hname. simpl. rewrite SetName_unfold. simpl.
    rewrite append_read by done.
    split; [by rewrite <- app_assoc|].
    rewrite last_cons. by destruct (last news).
Qed.

(** ** What a rename writes *)

(** X8. [SetName] leaves every cell of the memory of names as it was,
    but the one after the working slice's last element; with spare
    capacity it allocates nothing and writes the retired name there, so a
    descriptor that shares that array sees the cell change. *)
Theorem SetName_footprint name h desc :
  slice_ok (names h) (SchemaDescriptor.DrainingNames (working desc)) ->
  (forall i, i < length (names h) ->
     i <> ptr (SchemaDescriptor.DrainingNames (working desc))
          + len (SchemaDescriptor.DrainingNames (working desc)) ->
     names (fst (SetName name h desc)) !! i = names h !! i)
  /\ length (names h) <= length (names (fst (SetName name h desc)))
  /\ (len (SchemaDescriptor.DrainingNames (working desc))
      < cap (SchemaDescriptor.DrainingNames (working desc)) ->
      length (names (fst (SetName name h desc))) = length (names h)
      /\ names (fst (SetName name h desc))
           !! (ptr (SchemaDescriptor.DrainingNames (working desc))
               + len (SchemaDescriptor.DrainingNames (working desc)))
         = Some (NameInfo.mk (SchemaDescriptor.ParentID (working desc))
                   RootNamespaceID (SchemaDescriptor.Name (working desc)))
      /\ ptr (SchemaDescriptor.DrainingNames (working (snd (SetName name h desc))))
         = ptr (SchemaDescriptor.DrainingNames (working desc))).
Proof.
  intros [Hlen Hcap]. rewrite SetName_unfold. simpl.
  split; [|split].
  - intros i Hi Hne. by apply append_frame.
  - apply append_length.
  - intros Hlt. unfold append.
    destruct (Nat.ltb_spec (len (SchemaDescriptor.DrainingNames (working desc)))
                (cap (SchemaDescriptor.DrainingNames (working desc))))
      as [_|Hge]; [|lia].
    simpl. rewrite length_insert. split; [done|]. split; [|done].
    apply list_lookup_insert_eq. lia.
Qed.

(** ** Memory older than the working copy *)

Lemma renames_above st c L :
  is_set_draining c = false ->
  slice_ok (names (fst st)) (SchemaDescriptor.DrainingNames (working (snd st))) ->
  L <= ptr (SchemaDescriptor.DrainingNames (working (snd st))) ->
  slice_ok (names (fst (step st c)))
    (SchemaDescriptor.DrainingNames (working (snd (step st c))))
  /\ L <= ptr (SchemaDescriptor.DrainingNames (working (snd (step st c))))
  /\ take L (names (fst (step st c))) = take L (names (fst st)).
Proof.
  intros Hc Hok HL. destruct c as [name|ns|]; simpl; [|discriminate|].
  - rewrite SetName_unfold. simpl.
    split; [by apply append_ok|].
    destruct Hok as [Hlen Hcap]. unfold append.
    destruct (Nat.ltb_spec (len (SchemaDescriptor.DrainingNames (working (snd st))))
                (cap (SchemaDescriptor.DrainingNames (working (snd st)))))
      as [Hlt|Hge]; simpl.
    + split; [done|]. apply take_insert_ge. lia.
    + split; [lia|]. apply take_app_le. lia.
  - replace (SchemaDescriptor.DrainingNames
               (working (MaybeIncrementVersion (snd st))))
      with (SchemaDescriptor.DrainingNames (working (snd st))); [done|].
    unfold MaybeIncrementVersion.
    destruct (ClusterVersion (snd st)); [|done]. by destruct (_ =? _)%Z.
Qed.

Lemma renames_above_run cs st L :
  forallb (fun c => negb (is_set_draining c)) cs = true ->
  slice_ok (names (fst st)) (SchemaDescriptor.DrainingNames (working (snd st))) ->
  L <= ptr (SchemaDescriptor.DrainingNames (working (snd st))) ->
  take L (names (fst (run cs st))) = take L (names (fst st)).
Proof.
  revert st. induction cs as [|c cs IH]; intros st Hcs Hok HL; [done|].
  simpl in Hcs. apply andb_prop in Hcs as [Hc Hcs].
  rewrite run_cons.
  destruct (renames_above st c L) as (Hok' & HL' & Htake);
    [by destruct (is_set_draining c) | done | done |].
  by rewrite IH.
Qed.

(** X9. After [NewMutableExisting], renames and version bumps write
    nothing into the memory that was there when the constructor was
    called: that memory is as it was, and so is the message of every
    descriptor that lay in it, the baseline among them. *)
Theorem NewMutableExisting_keeps_earlier_memory h desc cs :
  forallb (fun c => negb (is_set_draining c)) cs = true ->
  take (length (names h)) (names (fst (run cs (NewMutableExisting h desc))))
  = names h
  /\ (forall d0, desc_ok h d0 ->
      load (fst (run cs (NewMutableExisting h desc))) d0 = load h d0).
Proof.
  intros Hcs.
  assert (take (length (names h))
            (names (fst (run cs (NewMutableExisting h desc))))
          = names h) as Htake.
  { rewrite (renames_above_run cs _ (length (names h)) Hcs).
    - rewrite NewMutableExisting_unfold. simpl.
      rewrite Clone_names. apply take_app_length.
    - rewrite NewMutableExisting_unfold. simpl. apply Clone_ok.
    - rewrite NewMutableExisting_unfold. unfold working. simpl.
      by rewrite Clone_DrainingNames. }
  split; [done|].
  intros d0 [[Hlen Hcap] Hpriv].
  rewrite <- (Clone_frame h desc d0) by done.
  unfold load. f_equal.
  - destruct (mutations_keep_identity cs (NewMutableExisting h desc))
      as (_ & _ & _ & ->).
    by rewrite NewMutableExisting_unfold.
  - rewrite Clone_names.
    apply slice_read_ext. intros i Hi.
    rewrite lookup_app_l by lia.
    transitivity
      (take (length (names h))
         (names (fst (run cs (NewMutableExisting h desc)))) !! i).
    + symmetry. apply lookup_take_lt. lia.
    + by rewrite Htake.
Qed.

(** ** Publishing *)

(** X10. [ImmutableCopy] only allocates: the working copy and every other
    descriptor whose references lie in the heap denote after the call
    what they did before, and the snapshot's own references lie in the
    heap. *)
Theorem ImmutableCopy_only_allocates h desc :
  desc_ok (fst (ImmutableCopy h desc)) (SchemaDesc (snd (ImmutableCopy h desc)))
  /\ length (names h) <= length (names (fst (ImmutableCopy h desc)))
  /\ take (length (names h)) (names (fst (ImmutableCopy h desc))) = names h
  /\ take (length (privs h)) (privs (fst (ImmutableCopy h desc))) = privs h
  /\ (forall d0, desc_ok h d0 ->
      load (fst (ImmutableCopy h desc)) d0 = load h d0).
Proof.
  split; [rewrite ImmutableCopy_unfold; apply Clone_ok|].
  split; [rewrite ImmutableCopy_unfold; simpl;
          rewrite Clone_names, length_app; lia|].
  split; [rewrite ImmutableCopy_unfold; simpl;
          rewrite Clone_names; apply take_app_length|].
  split; [|apply ImmutableCopy_frame].
  rewrite ImmutableCopy_unfold. simpl. unfold Clone.
  destruct (SchemaDescriptor.Privileges (working desc)) as [p|];
    [destruct (privs h !! p)|]; simpl;
    first [apply take_app_length | apply firstn_all].
Qed.

(** ** The name validator at its edges *)

(** X11. A name shorter than the reserved prefix, the empty name among
    them, is valid. *)
Theorem IsSchemaNameValid_short name :
  String.length name < String.length sessiondata.PgSchemaPrefix ->
  IsSchemaNameValid name = None.
Proof.
  intros Hlen. apply IsSchemaNameValid_other.
  destruct (strings.HasPrefix name sessiondata.PgSchemaPrefix) eqn:Hp; [|done].
  apply HasPrefix_starts_with in Hp as [rest ->].
  simpl in Hlen. lia.
Qed.

(** X12. The validator looks at the start of a name only: a name it
    refuses is refused whatever is appended to it, and the error names
    the whole candidate. *)
Theorem IsSchemaNameValid_extension name suffix :
  IsSchemaNameValid name <> None ->
  IsSchemaNameValid (name ++ suffix)%string
  = Some (errors_WithDetail
            (pgerror_Newf pgcode.ReservedName "unacceptable schema name %q"
               [(name ++ suffix)%string])
            reserved_prefix_detail).
Proof.
  intros Hbad. apply IsSchemaNameValid_reserved.
  destruct (strings.HasPrefix name sessiondata.PgSchemaPrefix) eqn:Hp.
  - apply HasPrefix_starts_with in Hp as [rest ->].
    apply HasPrefix_starts_with. by exists (rest ++ suffix)%string.
  - by rewrite IsSchemaNameValid_other in Hbad.
Qed.

End MoreProperties.

(** * The scenarios of the specification, run on the model *)

Module ScenarioChecks.

Import Scenarios.
#[local] Existing Instance Scenarios.env.

(** S1. *)
Example created_is_new :
  IsNew created = true /\ MaybeIncrementVersion created = created.
Proof. by split. Qed.

(** S2. *)
Example rename_then_bump :
  let st := run [CallMaybeIncrementVersion] renamed in
  SchemaDescriptor.Version (working (snd st)) = 4%Z
  /\ m_DrainingNames (load (fst st) (working (snd st)))
     = [NameInfo.mk 7%Z RootNamespaceID "s"]
  /\ SchemaDescriptor.Name (working (snd st)) = "s2"%string
  /\ OriginalName (snd st) = "s"%string.
Proof. by vm_compute. Qed.

(** S3. *)
Example bump_twice :
  let st := run [CallMaybeIncrementVersion; CallMaybeIncrementVersion] renamed in
  SchemaDescriptor.Version (working (snd st)) = 4%Z.
Proof. by vm_compute. Qed.

(** S4. *)
Example pg_extra_rejected :
  exists err, IsSchemaNameValid "pg_extra" = Some err
              /\ GetPGCode err = pgcode.ReservedName.
Proof. by eexists. Qed.

Example myschema_accepted : IsSchemaNameValid "myschema" = None.
Proof. reflexivity. Qed.

(** S5. *)
Example rename_then_clear :
  let st := run [CallSetDrainingNames nil_slice] renamed in
  m_DrainingNames (load (fst st) (working (snd st))) = [].
Proof. by vm_compute. Qed.

(** The largest [uint32] version wraps to 0 when bumped. *)
Example bump_wraps :
  let d := SchemaDescriptor.with_Version s_v3 4294967295%Z in
  let st := run [CallMaybeIncrementVersion] (NewMutableExisting h0 d) in
  SchemaDescriptor.Version (working (snd st)) = 0%Z.
Proof. by vm_compute. Qed.

(** An [append] in place: the second rename writes into the spare cell
    the first one allocated. *)
Example rename_twice :
  let st := run [CallSetName "s3"] renamed in
  names (fst st)
  = [NameInfo.mk 7%Z RootNamespaceID "s"; NameInfo.mk 7%Z RootNamespaceID "s2"]
  /\ SchemaDescriptor.DrainingNames (working (snd st)) = mkslice 0 2 2.
Proof. by vm_compute. Qed.

End ScenarioChecks.

(** * The claims on the scenarios *)

Module Witnesses.

Import Scenarios.
#[local] Existing Instance Scenarios.env.

(** C1 on the first rename of S2. *)
Lemma SetName_appends_draining_name_witness :
  slice_ok (names (fst existing))
    (SchemaDescriptor.DrainingNames (working (snd existing)))
  /\ m_DrainingNames
       (load (fst (SetName "s2" (fst existing) (snd existing)))
          (working (snd (SetName "s2" (fst existing) (snd existing)))))
     = [] ++ [NameInfo.mk 7%Z RootNamespaceID "s"]
  /\ SchemaDescriptor.Name
       (working (snd (SetName "s2" (fst existing) (snd existing))))
     = "s2"%string.
Proof.
  assert (slice_ok (names (fst existing))
            (SchemaDescriptor.DrainingNames (working (snd existing)))) as Hok.
  { vm_compute. lia. }
  split; [exact Hok|].
  destruct (SetName_appends_draining_name "s2" (fst existing) (snd existing) Hok)
    as (Hnames & Hname & _).
  split; [exact Hnames | exact Hname].
Defined.

(** C2 on S3: three calls after a rename. *)
Lemma MaybeIncrementVersion_idempotent_witness :
  1 <= 3
  /\ SchemaDescriptor.Version
       (working (Nat.iter 3 MaybeIncrementVersion
                   (snd (run [CallSetName "s2"] (NewMutableExisting h0 s_v3)))))
     = SchemaDescriptor.Version
         (working (MaybeIncrementVersion
                     (snd (run [CallSetName "s2"] (NewMutableExisting h0 s_v3)))))
  /\ SchemaDescriptor.Version
       (working (Nat.iter 3 MaybeIncrementVersion
                   (snd (run [CallSetName "s2"] (NewMutableExisting h0 s_v3)))))
     = 4%Z.
Proof.
  assert (1 <= 3) as Hn by lia.
  split; [exact Hn|].
  destruct (MaybeIncrementVersion_idempotent h0 s_v3 [CallSetName "s2"] 3 Hn)
    as (Hsame & _ & Hnext).
  split; [exact Hsame | exact Hnext].
Defined.

(** C3 on the bump of S2. *)
Lemma MaybeIncrementVersion_bumps_witness :
  ClusterVersion (snd renamed) = Some (NewImmutable s_v3)
  /\ SchemaDescriptor.Version (working (snd renamed))
     <> uint32_add (SchemaDescriptor.Version (SchemaDesc (NewImmutable s_v3))) 1
  /\ SchemaDescriptor.Version (working (MaybeIncrementVersion (snd renamed)))
     = 4%Z
  /\ SchemaDescriptor.ModificationTime
       (working (MaybeIncrementVersion (snd renamed)))
     = hlc.zero.
Proof.
  assert (ClusterVersion (snd renamed) = Some (NewImmutable s_v3)) as Hcv
    by reflexivity.
  assert (SchemaDescriptor.Version (working (snd renamed))
          <> uint32_add
               (SchemaDescriptor.Version (SchemaDesc (NewImmutable s_v3))) 1)
    as Hne by (vm_compute; discriminate).
  split; [exact Hcv|]. split; [exact Hne|].
  destruct (MaybeIncrementVersion_bumps (snd renamed) (NewImmutable s_v3) Hcv Hne)
    as (Hv & Ht & _).
  split; [exact Hv | exact Ht].
Defined.

(** C7 on a snapshot of a descriptor with one draining name, followed by
    two renames, a [SetDrainingNames] and a bump. *)
Lemma ImmutableCopy_snapshot_stable_witness :
  desc_ok h2 (working drained)
  /\ calls_apart (SchemaDescriptor.DrainingNames (SchemaDesc (snd published)))
       calls_own (fst published, drained)
  /\ m_DrainingNames (load (fst published) (SchemaDesc (snd published)))
     = [NameInfo.mk 7%Z 0%Z "old"]
  /\ load (fst (run calls_own (fst published, drained)))
       (SchemaDesc (snd published))
     = load h2 (working drained).
Proof.
  assert (desc_ok h2 (working drained)) as Hok by (vm_compute; lia).
  assert (calls_apart
            (SchemaDescriptor.DrainingNames (SchemaDesc (snd published)))
            calls_own (fst published, drained)) as Hcs by (vm_compute; lia).
  split; [exact Hok|]. split; [exact Hcs|].
  destruct (ImmutableCopy_snapshot_stable h2 drained calls_own Hok Hcs)
    as (Hcopy & Hkept).
  split; [|exact Hkept].
  exact (f_equal m_DrainingNames Hcopy).
Defined.

(** C6 fails as stated: a descriptor made by [NewMutableExisting] from one
    whose ID is zero has a baseline, so [IsNew] is false, and yet
    [OriginalID] returns the invalid ID. *)
Lemma OriginalID_invalid_with_baseline :
  ~ (IsNew existing_without_id = true
     <-> OriginalID existing_without_id = descpb.InvalidID).
Proof.
  assert (IsNew existing_without_id = false) as Hnew by reflexivity.
  assert (OriginalID existing_without_id = descpb.InvalidID) as Hid
    by reflexivity.
  intros [_ Hback]. rewrite (Hback Hid) in Hnew. discriminate Hnew.
Qed.

(** C7 fails as stated: after [SetDrainingNames(snap.DrainingNames[:0])],
    [SetName] appends in place, into the first cell of the snapshot. *)
Lemma ImmutableCopy_snapshot_aliased :
  m_DrainingNames (load (fst published) (SchemaDesc (snd published)))
  = [NameInfo.mk 7%Z 0%Z "old"]
  /\ m_DrainingNames
       (load (fst (run calls_aliasing (fst published, drained)))
          (SchemaDesc (snd published)))
     = [NameInfo.mk 7%Z 0%Z "s"]
  /\ load (fst (run calls_aliasing (fst published, drained)))
       (SchemaDesc (snd published))
     <> load (fst published) (SchemaDesc (snd published)).
Proof.
  split; [reflexivity|]. split; [reflexivity|].
  intros Heq. apply (f_equal m_DrainingNames) in Heq.
  vm_compute in Heq. discriminate Heq.
Qed.

End Witnesses.

(** * The further properties on the scenarios *)

Module MoreWitnesses.

Import Scenarios.
#[local] Existing Instance Scenarios.env.


(** X3 on a working copy at version 5 over a baseline at version 3. *)
Lemma MaybeIncrementVersion_drift_witness :
  ClusterVersion drifted = Some (NewImmutable s_v3)
  /\ SchemaDescriptor.Version (working drifted)
     <> uint32_add (SchemaDescriptor.Version (SchemaDesc (NewImmutable s_v3))) 1
  /\ uint32_add (SchemaDescriptor.Version (working drifted)) 1
     <> uint32_add (SchemaDescriptor.Version (SchemaDesc (NewImmutable s_v3))) 1
  /\ SchemaDescriptor.Version
       (working (MaybeIncrementVersion (MaybeIncrementVersion drifted)))
     = 7%Z.
Proof.
  assert (ClusterVersion drifted = Some (NewImmutable s_v3)) as Hcv
    by reflexivity.
  assert (SchemaDescriptor.Version (working drifted)
          <> uint32_add
               (SchemaDescriptor.Version (SchemaDesc (NewImmutable s_v3))) 1)
    as Hne1 by (vm_compute; discriminate).
  assert (uint32_add (SchemaDescriptor.Version (working drifted)) 1
          <> uint32_add
               (SchemaDescriptor.Version (SchemaDesc (NewImmutable s_v3))) 1)
    as Hne2 by (vm_compute; discriminate).
  split; [exact Hcv|]. split; [exact Hne1|]. split; [exact Hne2|].
  exact (MaybeIncrementVersion_drift drifted (NewImmutable s_v3) Hcv Hne1 Hne2).
Defined.

(** X5 on a rename followed by a [SetDrainingNames]. *)
Lemma version_changes_by_bump_only_witness :
  forallb (fun c => negb (is_bump c))
    [CallSetName "s2"; CallSetDrainingNames nil_slice] = true
  /\ SchemaDescriptor.Version
       (working (snd (run [CallSetName "s2"; CallSetDrainingNames nil_slice]
                        existing)))
     = 3%Z
  /\ SchemaDescriptor.ModificationTime
       (working (snd (run [CallSetName "s2"; CallSetDrainingNames nil_slice]
                        existing)))
     = hlc.mk 1600000000%Z 2%Z.
Proof.
  assert (forallb (fun c => negb (is_bump c))
            [CallSetName "s2"; CallSetDrainingNames nil_slice] = true) as Hcs
    by reflexivity.
  split; [exact Hcs|].
  exact (version_changes_by_bump_only
           [CallSetName "s2"; CallSetDrainingNames nil_slice] existing Hcs).
Defined.

(** X6 on the calls after the snapshot of the C7 scenario. *)
Lemma mutations_keep_references_valid_witness :
  desc_ok (fst published) (working drained)
  /\ calls_ok calls_own (fst published, drained)
  /\ desc_ok (fst (run calls_own (fst published, drained)))
       (working (snd (run calls_own (fst published, drained)))).
Proof.
  assert (desc_ok (fst published) (working drained)) as Hok
    by (vm_compute; lia).
  assert (calls_ok calls_own (fst published, drained)) as Hcs
    by (vm_compute; lia).
  split; [exact Hok|]. split; [exact Hcs|].
  exact (proj1 (mutations_keep_references_valid calls_own
                  (fst published, drained) Hok Hcs)).
Defined.

(** X7 on two renames of S2's descriptor. *)
Lemma renames_retire_names_in_order_witness :
  slice_ok (names (fst existing))
    (SchemaDescriptor.DrainingNames (working (snd existing)))
  /\ m_DrainingNames
       (load (fst (run (map CallSetName ["s2"; "s3"]%string) existing))
          (working (snd (run (map CallSetName ["s2"; "s3"]%string) existing))))
     = [] ++ [NameInfo.mk 7%Z 0%Z "s"; NameInfo.mk 7%Z 0%Z "s2"]
  /\ SchemaDescriptor.Name
       (working (snd (run (map CallSetName ["s2"; "s3"]%string) existing)))
     = "s3"%string.
Proof.
  assert (slice_ok (names (fst existing))
            (SchemaDescriptor.DrainingNames (working (snd existing)))) as Hok
    by (vm_compute; lia).
  split; [exact Hok|].
  exact (renames_retire_names_in_order ["s2"; "s3"]%string existing Hok).
Defined.

(** X8 on a descriptor made from scratch over an array with a spare
    cell: the rename writes the caller's second cell. *)
Lemma SetName_footprint_witness :
  slice_ok (names h_spare)
    (SchemaDescriptor.DrainingNames
       (working (NewMutableCreatedSchemaDescriptor s_spare)))
  /\ length (names (fst (SetName "s2" h_spare
                           (NewMutableCreatedSchemaDescriptor s_spare))))
     = 2
  /\ names (fst (SetName "s2" h_spare
                   (NewMutableCreatedSchemaDescriptor s_spare))) !! 1
     = Some (NameInfo.mk 7%Z 0%Z "s").
Proof.
  assert (slice_ok (names h_spare)
            (SchemaDescriptor.DrainingNames
               (working (NewMutableCreatedSchemaDescriptor s_spare)))) as Hok
    by (vm_compute; lia).
  split; [exact Hok|].
  destruct (SetName_footprint "s2" h_spare
              (NewMutableCreatedSchemaDescriptor s_spare) Hok)
    as (_ & _ & Hspare).
  assert (1 < 2) as Hlt by lia.
  destruct (Hspare Hlt) as (Hlen & Hcell & _).
  split; [exact Hlen | exact Hcell].
Defined.

(** X9 on renames and a bump after [NewMutableExisting] of a descriptor
    with one draining name. *)
Lemma NewMutableExisting_keeps_earlier_memory_witness :
  forallb (fun c => negb (is_set_draining c))
    [CallSetName "s2"; CallMaybeIncrementVersion; CallSetName "s3"] = true
  /\ take 1
       (names (fst (run [CallSetName "s2"; CallMaybeIncrementVersion;
                         CallSetName "s3"]
                      (NewMutableExisting h1 s_drained))))
     = [NameInfo.mk 7%Z 0%Z "old"].
Proof.
  assert (forallb (fun c => negb (is_set_draining c))
            [CallSetName "s2"; CallMaybeIncrementVersion; CallSetName "s3"]
          = true) as Hcs by reflexivity.
  split; [exact Hcs|].
  exact (proj1 (NewMutableExisting_keeps_earlier_memory h1 s_drained
                  [CallSetName "s2"; CallMaybeIncrementVersion;
                   CallSetName "s3"] Hcs)).
Defined.

(** X11 on a name of two characters. *)
Lemma IsSchemaNameValid_short_witness :
  String.length "pg" < String.length sessiondata.PgSchemaPrefix
  /\ IsSchemaNameValid "pg" = None.
Proof.
  assert (String.length "pg" < String.length sessiondata.PgSchemaPrefix)
    as Hlen by (vm_compute; lia).
  split; [exact Hlen|].
  exact (IsSchemaNameValid_short "pg" Hlen).
Defined.

(** X12 on the bare prefix extended to a system schema's name. *)
Lemma IsSchemaNameValid_extension_witness :
  IsSchemaNameValid "pg_" <> None
  /\ IsSchemaNameValid "pg_catalog"
     = Some (errors_WithDetail
               (pgerror_Newf pgcode.ReservedName "unacceptable schema name %q"
                  ["pg_catalog"%string])
               reserved_prefix_detail).
Proof.
  assert (IsSchemaNameValid "pg_" <> None) as Hbad by discriminate.
  split; [exact Hbad|].
  exact (IsSchemaNameValid_extension "pg_" "catalog" Hbad).
Defined.

End MoreWitnesses.
